(** * gopackagesdriver / archive_to_json: flag-dispatch parser and escaped splitter

    A shallow embedding of [go/tools/gopackagesdriver/archive_to_json.go].

    - Go strings are byte sequences: [string] (a list of [ascii] bytes).
    - [for _, r := range value] walks the runes of [value]; the splitter is
      written over an arbitrary rune type with decidable equality and takes
      the rune sequence that [range] yields.  At program level the runes of
      a token are its bytes, which is exact for single-byte (ASCII) text.
    - Closures mutate variables they capture: a callback is a transformer of
      the state [St] that holds those variables.
    - A Go [error] is its message; [nil] is [None].
    - A run-time panic (index out of range) is an outcome of its own. *)

From Equations Require Import Equations.
From stdpp Require Import base option list strings gmap.
From Stdlib Require Import Ascii ZArith Arith Lia.

(** ** Escaped-delimiter splitter *)

Module Splitter.
Section WithRune.
Context {rune : Type} `{EqDecision rune}.

(** The three loop variables of [splitEscapedString]:
    [field] is the [strings.Builder], [values] the result slice. *)
Record loopState := LoopState {
  field : list rune;
  escaped : bool;
  values : list (list rune)
}.

Definition initial : loopState :=
  {| field := []; escaped := false; values := [] |}.

(** One iteration of the [switch] in the loop body, cases in source order. *)
Definition step (delimiter escape : rune) (st : loopState) (r : rune)
  : loopState :=
  if escaped st then
    {| field := field st ++ [r]; escaped := false; values := values st |}
  else if decide (r = escape) then
    {| field := field st; escaped := true; values := values st |}
  else if decide (r = delimiter) then
    {| field := []; escaped := false; values := values st ++ [field st] |}
  else
    {| field := field st ++ [r]; escaped := false; values := values st |}.

(** The loop: the state after ranging over all of [value]. *)
Definition scan (value : list rune) (delimiter escape : rune) : loopState :=
  fold_left (step delimiter escape) value initial.

(** [return append(values, field.String())] *)
Definition finish (st : loopState) : list (list rune) :=
  values st ++ [field st].

Definition splitEscapedString (value : list rune) (delimiter escape : rune)
  : list (list rune) :=
  finish (scan value delimiter escape).

(** The specification's count, written from its words: an occurrence of
    the delimiter is unescaped when it is not immediately preceded by an
    escape character that is itself unescaped.  [esc] tells whether the
    character before the current one was such an escape character. *)
Fixpoint unescapedDelimitersFrom (esc : bool) (value : list rune)
    (delimiter escape : rune) : nat :=
  match value with
  | [] => 0
  | r :: rest =>
      if esc then unescapedDelimitersFrom false rest delimiter escape
      else ((if decide (r = delimiter) then 1 else 0)
            + unescapedDelimitersFrom (bool_decide (r = escape)) rest
                delimiter escape)
  end.

Definition unescapedDelimiters (value : list rune) (delimiter escape : rune)
  : nat :=
  unescapedDelimitersFrom false value delimiter escape.

End WithRune.
End Splitter.

Import Splitter.

(** ** Outcomes, errors and token sources *)

(** A Go [error] value, identified with its message. *)
Definition error := string.

(** What a call does: it returns a value, or the run-time system panics. *)
Inductive outcome (A : Type) : Type :=
  | Returned (a : A)
  | Panicked (msg : string).
Arguments Returned {A} a.
Arguments Panicked {A} msg.

(** The [scanner] interface.  [Text] can panic (a slice index out of range).
    [pending] bounds the number of tokens still to come; both token sources
    of the program are finite, which is what makes the dispatch loop end. *)
Class scanner (T : Type) := {
  Scan : T -> bool * T;
  Text : T -> outcome string;
  Err : T -> option error;
  pending : T -> nat;
  Scan_pending : forall t t', Scan t = (true, t') -> (pending t' < pending t)%nat
}.

(** [yields sc toks]: scanning [sc] to its end produces the tokens [toks],
    and [Text] does not panic on the way. *)
Inductive yields {T : Type} `{scanner T} : T -> list string -> Prop :=
  | yields_end sc sc' :
      Scan sc = (false, sc') -> yields sc []
  | yields_token sc sc' token rest :
      Scan sc = (true, sc') -> Text sc' = Returned token ->
      yields sc' rest -> yields sc (token :: rest).

(** *** The in-memory token source *)

Record sliceScanner := SliceScanner {
  tokens : list string;
  lastIndex : Z
}.

Definition newSliceScanner (tokens : list string) : sliceScanner :=
  {| tokens := tokens; lastIndex := -1 |}.

Definition sliceScanner_Scan (s : sliceScanner) : bool * sliceScanner :=
  if (lastIndex s <? Z.of_nat (length (tokens s)) - 1)%Z
  then (true, {| tokens := tokens s; lastIndex := lastIndex s + 1 |})
  else (false, s).

Definition sliceScanner_Text (s : sliceScanner) : outcome string :=
  if (lastIndex s <? 0)%Z then Returned ""
  else match tokens s !! Z.to_nat (lastIndex s) with
       | Some t => Returned t
       | None => Panicked "index out of range"
       end.

Definition sliceScanner_Err (s : sliceScanner) : option error := None.

Lemma sliceScanner_Scan_pending (t t' : sliceScanner) :
  sliceScanner_Scan t = (true, t') ->
  (Z.to_nat (Z.of_nat (length (tokens t')) - 1 - lastIndex t')
   < Z.to_nat (Z.of_nat (length (tokens t)) - 1 - lastIndex t))%nat.
Proof.
  unfold sliceScanner_Scan.
  destruct (Z.ltb_spec (lastIndex t) (Z.of_nat (length (tokens t)) - 1));
    intros Heq; inversion Heq; subst; simpl; lia.
Qed.

#[export] Instance sliceScanner_scanner : scanner sliceScanner := {|
  Scan := sliceScanner_Scan;
  Text := sliceScanner_Text;
  Err := sliceScanner_Err;
  pending s := Z.to_nat (Z.of_nat (length (tokens s)) - 1 - lastIndex s);
  Scan_pending := sliceScanner_Scan_pending
|}.

(** *** The line-oriented token source

    [io.Reader] and [bufio.Scanner] belong to the Go library.  A reader is
    the bytes it will deliver before end of file; the scanner uses the
    default split function [bufio.ScanLines]: one token per line, the line
    terminator (newline, with an optional carriage return before it)
    removed, a last line without newline still a token.  The scanner's
    buffer limit and read errors are left out. *)

Record io_Reader := IoReader { unread : string }.

Record bufio_Scanner := BufioScanner {
  input : string;   (* not yet scanned *)
  token : string    (* last token produced *)
}.

Definition bufio_NewScanner (r : io_Reader) : bufio_Scanner :=
  {| input := unread r; token := "" |}.

Definition newline : ascii := "010"%char.
Definition carriageReturn : ascii := "013"%char.

(** The text up to the first newline, and what follows that newline. *)
Fixpoint cutLine (s : string) : string * string :=
  match s with
  | EmptyString => (EmptyString, EmptyString)
  | String c s' =>
      if decide (c = newline) then (EmptyString, s')
      else (String c (cutLine s').1, (cutLine s').2)
  end.

Fixpoint dropCR (line : string) : string :=
  match line with
  | EmptyString => EmptyString
  | String c EmptyString =>
      if decide (c = carriageReturn) then EmptyString else line
  | String c rest => String c (dropCR rest)
  end.

Definition bufio_Scan (s : bufio_Scanner) : bool * bufio_Scanner :=
  match input s with
  | EmptyString => (false, {| input := ""; token := "" |})
  | _ => (true, {| input := (cutLine (input s)).2;
                   token := dropCR (cutLine (input s)).1 |})
  end.

Definition bufio_Text (s : bufio_Scanner) : outcome string :=
  Returned (token s).

Definition bufio_Err (s : bufio_Scanner) : option error := None.

Lemma cutLine_length (s : string) :
  (String.length (cutLine s).2 <= String.length s)%nat.
Proof.
  induction s as [|c s IH]; simpl; [lia|].
  destruct (decide (c = newline)); simpl; lia.
Qed.

Lemma bufio_Scan_pending (t t' : bufio_Scanner) :
  bufio_Scan t = (true, t') ->
  (String.length (input t') < String.length (input t))%nat.
Proof.
  unfold bufio_Scan. destruct (input t) as [|c s] eqn:Hin; [discriminate|].
  intros Heq; inversion Heq; subst; clear Heq. simpl.
  destruct (decide (c = newline)); simpl; [lia|].
  pose proof (cutLine_length s). lia.
Qed.

#[export] Instance bufio_scanner : scanner bufio_Scanner := {|
  Scan := bufio_Scan;
  Text := bufio_Text;
  Err := bufio_Err;
  pending s := String.length (input s);
  Scan_pending := bufio_Scan_pending
|}.

(** ** Flag-dispatch parser *)

(** The operating system's part in [NewBazelArgsParser]: [os.Open]. *)
Class OS (St : Type) := {
  os_Open : string -> St -> (io_Reader + error) * St
}.

Section Parser.
Context {St : Type}.

(** A callback is a non-nil function value; calling it changes the state
    it captured. *)
Definition setter : Type := string -> St -> St.

Record arg := Arg { Setter : setter }.

(** The provider returns a reader, or else an error. *)
Definition paramsReaderGetterFn : Type :=
  string -> St -> (io_Reader + error) * St.

Record bazelArgsParser := BazelArgsParser {
  args : gmap string arg;
  paramsReaderGetter : paramsReaderGetterFn
}.

Definition WithParamsReaderGetter (p : bazelArgsParser)
    (getter : paramsReaderGetterFn) : bazelArgsParser :=
  {| args := args p; paramsReaderGetter := getter |}.

Definition WithArg (p : bazelArgsParser) (flag : string)
    (setter : setter) : bazelArgsParser :=
  {| args := <[flag := {| Setter := setter |}]> (args p);
     paramsReaderGetter := paramsReaderGetter p |}.

Definition unexpectedFlag (token : string) : error :=
  "unexpected flag " +:+ token.

(** The [for scanner.Scan()] loop of [parseBazelArguments];
    [currentSetter] is [None] while the Go variable is nil. *)
Equations? parseLoop {T : Type} `{scanner T} (p : bazelArgsParser)
    (currentSetter : option setter) (sc : T) (st : St)
    : outcome (option error) * St by wf (pending sc) lt :=
  parseLoop p currentSetter sc st with Logic.inspect (Scan sc) := {
    | exist _ (false, _) _ => (Returned None, st)
    | exist _ (true, sc') Hscan with Text sc' := {
        | Panicked msg => (Panicked msg, st)
        | Returned token with args p !! token := {
            | Some a => parseLoop p (Some (Setter a)) sc' st
            | None with currentSetter := {
                | None => (Returned (Some (unexpectedFlag token)), st)
                | Some set => parseLoop p currentSetter sc' (set token st)
              } } } }.
Proof. all: by apply Scan_pending. Qed.

Definition parseBazelArguments {T : Type} `{scanner T}
    (p : bazelArgsParser) (sc : T) (st : St)
    : outcome (option error) * St :=
  parseLoop p None sc st.

(** The same loop over an explicit list of tokens. *)
Fixpoint dispatch (p : bazelArgsParser) (currentSetter : option setter)
    (toks : list string) (st : St) : outcome (option error) * St :=
  match toks with
  | [] => (Returned None, st)
  | token :: rest =>
      match args p !! token with
      | Some a => dispatch p (Some (Setter a)) rest st
      | None =>
          match currentSetter with
          | None => (Returned (Some (unexpectedFlag token)), st)
          | Some set => dispatch p currentSetter rest (set token st)
          end
      end
  end.

(** Every registered callback preserves the property [I] of the state. *)
Definition settersPreserve (I : St -> Prop) (p : bazelArgsParser) : Prop :=
map_Forall (fun _ a => forall value st, I st -> I (Setter a value st))
  (args p).

(** The specification's reading of a token stream: flag tokens, each
    followed by its run of value tokens. *)
Definition tokensOf (groups : list (string * list string)) : list string :=
  concat ((fun g => g.1 :: g.2) <$> groups).

Definition wellGrouped (p : bazelArgsParser)
    (groups : list (string * list string)) : Prop :=
  Forall (fun g => is_Some (args p !! g.1)
                   /\ Forall (fun value => args p !! value = None) g.2)
    groups.

(** One call per value, in order, of the callback registered for the flag. *)
Definition deliverRun (p : bazelArgsParser) (st : St)
    (g : string * list string) : St :=
  match args p !! g.1 with
  | Some a => fold_left (fun st' value => Setter a value st') g.2 st
  | None => st
  end.

Definition deliver (p : bazelArgsParser)
    (groups : list (string * list string)) (st : St) : St :=
  fold_left (deliverRun p) groups st.

Definition usageError : error := "expected single argument with param file".

Definition Parse (p : bazelArgsParser) (arguments : list string) (st : St)
    : outcome (option error) * St :=
  match arguments with
  | [] => (Returned None, st)
  | firstArgument :: _ =>
      match String.get 0 firstArgument with
      | None => (Panicked "index out of range [0] with length 0", st)
      | Some c =>
          if negb (bool_decide (c = "@"%char)) then
            parseBazelArguments p (newSliceScanner arguments) st
          else if bool_decide (1 < length arguments)%nat then
            (Returned (Some usageError), st)
          else
            match paramsReaderGetter p
                    (String.substring 1 (String.length firstArgument - 1)
                       firstArgument) st with
            | (inr err, st1) => (Returned (Some err), st1)
            | (inl paramsReader, st1) =>
                parseBazelArguments p (bufio_NewScanner paramsReader) st1
            end
      end
  end.

Definition NewBazelArgsParser `{OS St} : bazelArgsParser :=
  {| args := ∅; paramsReaderGetter := os_Open |}.

End Parser.

Arguments arg St : clear implicits.
Arguments bazelArgsParser St : clear implicits.
Arguments setter St : clear implicits.


(** ** A recording parser, in the manner of [TestBazelParser]

    Every callback appends the flag it is registered for and the value it
    receives to a log; the stream provider counts its calls, keeps the path
    it was asked for, and answers with a reader over [ReaderContents] or
    with [GetterErr]. *)

Record testState := TestState {
  calls : list (string * string);
  paramsReaderGetterCallsCount : nat;
  requestedParamsPath : string
}.

Definition freshTest : testState :=
  {| calls := []; paramsReaderGetterCallsCount := 0;
     requestedParamsPath := "" |}.

Record MockedParams := Mocked {
  ReaderContents : string;
  GetterErr : option error
}.

Definition logCall (flag : string) : setter testState :=
  fun value ts =>
    {| calls := calls ts ++ [(flag, value)];
       paramsReaderGetterCallsCount := paramsReaderGetterCallsCount ts;
       requestedParamsPath := requestedParamsPath ts |}.

Definition mockGetter (m : MockedParams)
  : string -> testState -> (io_Reader + error) * testState :=
  fun paramsPath ts =>
    (match GetterErr m with
     | Some err => inr err
     | None => inl {| unread := ReaderContents m |}
     end,
     {| calls := calls ts;
        paramsReaderGetterCallsCount := S (paramsReaderGetterCallsCount ts);
        requestedParamsPath := paramsPath |}).

Definition testParser (flags : list string) (m : MockedParams)
  : bazelArgsParser testState :=
  fold_left (fun p flag => WithArg p flag (logCall flag)) flags
    {| args := ∅; paramsReaderGetter := mockGetter m |}.

(** ** The archive record and its command line *)

Record archive := Archive {
  ID : string;
  PkgPath : string;
  ExportFile : string;
  GoFiles : list string;
  CompiledGoFiles : list string;
  OtherFiles : list string;
  Imports : gmap string string   (* allocated by [main], never nil *)
}.

(** [strings.HasSuffix] *)
Definition HasSuffix (s suffix : string) : bool :=
  bool_decide (String.length suffix <= String.length s)%nat
  && bool_decide
       (String.substring (String.length s - String.length suffix)
          (String.length suffix) s = suffix).

Definition malformedPair (value : string) : error :=
  "could not parse key value pair: " +:+ value.

(** The runes of a token are its bytes (single-byte text). *)
Definition runes (s : string) : list ascii := String.list_ascii_of_string s.

(** [m] is updated in place in the source; the new map is returned here. *)
Definition parseKeyValueArg (value : string) (m : gmap string string)
  : option error * gmap string string :=
  let fields :=
    String.string_of_list_ascii
      <$> splitEscapedString (runes value) "="%char "\"%char in
  match fields with
  | [key; val] => (None, <[key := val]> m)
  | _ => (Some (malformedPair value), m)       (* len(fields) != 2 *)
  end.

(** The files the operating system knows, and the paths opened and not
    closed since. *)
Record fileSystem := FileSystem {
  files : gmap string string;
  openFiles : list string
}.

(** What the closures of [parseArchiveAndOutputPath] capture, together with
    the file system the default stream provider works on. *)
Record env := Env {
  arch : archive;
  outputPath : string;
  fs : fileSystem
}.

Definition withArch (f : archive -> archive) (e : env) : env :=
  {| arch := f (arch e); outputPath := outputPath e; fs := fs e |}.

Definition noSuchFile (path : string) : error :=
  "open " +:+ path +:+ ": no such file or directory".

(** [os.Open]: a reader over the file's bytes, the file left open. *)
Definition env_Open (path : string) (e : env) : (io_Reader + error) * env :=
  match files (fs e) !! path with
  | Some content =>
      (inl {| unread := content |},
       {| arch := arch e; outputPath := outputPath e;
          fs := {| files := files (fs e);
                   openFiles := path :: openFiles (fs e) |} |})
  | None => (inr (noSuchFile path), e)
  end.

#[export] Instance env_OS : OS env := {| os_Open := env_Open |}.

Definition setID (value : string) : env -> env :=
  withArch (fun a =>
    {| ID := value; PkgPath := PkgPath a; ExportFile := ExportFile a;
       GoFiles := GoFiles a; CompiledGoFiles := CompiledGoFiles a;
       OtherFiles := OtherFiles a; Imports := Imports a |}).

Definition setPkgPath (value : string) : env -> env :=
  withArch (fun a =>
    {| ID := ID a; PkgPath := value; ExportFile := ExportFile a;
       GoFiles := GoFiles a; CompiledGoFiles := CompiledGoFiles a;
       OtherFiles := OtherFiles a; Imports := Imports a |}).

Definition setExportFile (value : string) : env -> env :=
  withArch (fun a =>
    {| ID := ID a; PkgPath := PkgPath a; ExportFile := value;
       GoFiles := GoFiles a; CompiledGoFiles := CompiledGoFiles a;
       OtherFiles := OtherFiles a; Imports := Imports a |}).

Definition addDataSrc (value : string) : env -> env :=
  withArch (fun a =>
    if HasSuffix value ".go" then
      {| ID := ID a; PkgPath := PkgPath a; ExportFile := ExportFile a;
         GoFiles := GoFiles a ++ [value];
         CompiledGoFiles := CompiledGoFiles a ++ [value];
         OtherFiles := OtherFiles a; Imports := Imports a |}
    else
      {| ID := ID a; PkgPath := PkgPath a; ExportFile := ExportFile a;
         GoFiles := GoFiles a; CompiledGoFiles := CompiledGoFiles a;
         OtherFiles := OtherFiles a ++ [value]; Imports := Imports a |}).

(** The callback calls [parseKeyValueArg] as a statement: the returned
    error is not looked at. *)
Definition addDirectPkg (value : string) : env -> env :=
  withArch (fun a =>
    {| ID := ID a; PkgPath := PkgPath a; ExportFile := ExportFile a;
       GoFiles := GoFiles a; CompiledGoFiles := CompiledGoFiles a;
       OtherFiles := OtherFiles a;
       Imports := (parseKeyValueArg value (Imports a)).2 |}).

Definition setOutputPath (value : string) (e : env) : env :=
  {| arch := arch e; outputPath := value; fs := fs e |}.

Definition archiveParser : bazelArgsParser env :=
  WithArg (WithArg (WithArg (WithArg (WithArg (WithArg
    NewBazelArgsParser
      "--id" setID)
      "--pkg-path" setPkgPath)
      "--export-file" setExportFile)
      "--data-srcs" addDataSrc)
      "--direct-pkg" addDirectPkg)
      "--output-file" setOutputPath.

Definition noOutputPath : error := "invalid usage: no output path".

(** Returns the pair the Go function returns, and the state left behind:
    the archive behind the pointer and the file system. *)
Definition parseArchiveAndOutputPath (arguments : list string)
    (a : archive) (os : fileSystem)
  : outcome (string * option error) * env :=
  let start := {| arch := a; outputPath := ""; fs := os |} in
  match Parse archiveParser arguments start with
  | (Panicked msg, e) => (Panicked msg, e)
  | (Returned (Some err), e) => (Returned ("", Some err), e)
  | (Returned None, e) =>
      if decide (outputPath e = "")
      then (Returned ("", Some noOutputPath), e)
      else (Returned (outputPath e, None), e)
  end.

(** The archive [main] starts from. *)
Definition newArchive : archive :=
  {| ID := ""; PkgPath := ""; ExportFile := ""; GoFiles := [];
     CompiledGoFiles := []; OtherFiles := []; Imports := ∅ |}.

(** A file system holding one closed file. *)
Definition oneFile (path content : string) : fileSystem :=
  {| files := {[path := content]}; openFiles := [] |}.

(** A stream is released once its file is no longer among the open ones. *)
Definition released (path : string) (e : env) : Prop :=
  path ∉ openFiles (fs e).

(** Two parameter files: a well-formed one, and one whose first line is not
    a flag, on which the dispatch loop fails. *)
Definition goodParams : string :=
  "--id" +:+ String newline ("lib" +:+ String newline
    ("--output-file" +:+ String newline "out.json")).

Definition badParams : string := "lib" +:+ String newline "--id".

(** ** The producer's side of the escaping convention

    The tokens are written by the build rules, outside this program.  What
    [splitEscapedString] undoes is this encoding: inside a field every
    delimiter and every escape character is preceded by an escape
    character, and the encoded fields are joined by single delimiters. *)

Section Encoder.
Context {rune : Type} `{EqDecision rune}.

Definition escapeField (delimiter escape : rune) (f : list rune) : list rune :=
  flat_map (fun r => if decide (r = escape) then [escape; r]
                     else if decide (r = delimiter) then [escape; r]
                     else [r]) f.

Fixpoint joinFields (delimiter escape : rune) (fields : list (list rune))
  : list rune :=
  match fields with
  | [] => []
  | [f] => escapeField delimiter escape f
  | f :: rest =>
      escapeField delimiter escape f
      ++ delimiter :: joinFields delimiter escape rest
  end.

(** What the loop has kept of the input so far, in input order. *)
Definition kept (st : loopState (rune := rune)) : list rune :=
  concat (values st) ++ field st.

(** Characters kept, plus one per closed field, plus a pending escape. *)
Definition weight (st : loopState (rune := rune)) : nat :=
  length (kept st) + length (values st) + (if escaped st then 1 else 0).

End Encoder.

(** A key and a value as one [--direct-pkg] token. *)
Definition encodePair (key val : string) : string :=
  String.string_of_list_ascii
    (joinFields "="%char "\"%char [runes key; runes val]).

(** ** Parameter files and repeated scanning *)

(** The text of a parameter file that holds the given tokens, one per
    line, the last line without a newline. *)
Fixpoint joinLines (toks : list string) : string :=
  match toks with
  | [] => ""
  | [t] => t
  | t :: rest => t +:+ String newline (joinLines rest)
  end.

(** A token that survives a line: no newline inside, no carriage return
    at its end. *)
Definition lineToken (t : string) : Prop :=
  (newline ∉ runes t) /\ last (runes t) <> Some carriageReturn.

(** The scanner after [k] calls of [Scan]. *)
Definition scanned {T : Type} `{scanner T} (k : nat) (sc : T) : T :=
  Nat.iter k (fun s => (Scan s).2) sc.

(** * Properties *)

(** ** The splitter *)

Section SplitterFacts.
Context {rune : Type} `{EqDecision rune}.
Implicit Types (value : list rune) (delimiter escape r : rune).
Implicit Types (st : loopState (rune := rune)).

Lemma scan_snoc value delimiter escape r :
  scan (value ++ [r]) delimiter escape
  = step delimiter escape (scan value delimiter escape) r.
Proof. unfold scan. by rewrite fold_left_app. Qed.

Lemma finish_nonempty st : (1 <= length (finish st))%nat.
Proof. unfold finish. rewrite length_app. simpl. lia. Qed.

(** Running the loop from any state closes one field per unescaped
    delimiter, as long as the delimiter is not the escape character. *)
Lemma loop_values_length delimiter escape value st :
  delimiter <> escape ->
  length (values (fold_left (step delimiter escape) value st))
  = (length (values st)
     + unescapedDelimitersFrom (escaped st) value delimiter escape)%nat.
Proof.
  intros Hne. revert st.
  induction value as [|r value IH]; intros st; simpl; [lia|].
  rewrite IH. unfold step.
  destruct (escaped st) eqn:Hesc; simpl; [done|].
  destruct (decide (r = escape)) as [->|Hre]; simpl.
  - rewrite bool_decide_eq_true_2 by done.
    destruct (decide (escape = delimiter)); [congruence|]. simpl. lia.
  - rewrite bool_decide_eq_false_2 by done.
    destruct (decide (r = delimiter)); simpl; [rewrite length_app|]; simpl; lia.
Qed.

End SplitterFacts.

(** C3 (amended).  For every rune sequence and every delimiter and escape
    character, [splitEscapedString] returns at least one field, and the
    empty input yields exactly one empty field.  When the delimiter differs
    from the escape character, the number of fields is the number of
    unescaped delimiter occurrences plus one. *)
Theorem splitEscapedString_field_count {rune : Type} `{EqDecision rune}
    (value : list rune) (delimiter escape : rune) :
  (1 <= length (splitEscapedString value delimiter escape))%nat
  /\ splitEscapedString [] delimiter escape = [[]]
  /\ (delimiter <> escape ->
      length (splitEscapedString value delimiter escape)
      = (unescapedDelimiters value delimiter escape + 1)%nat).
Proof.
  split; [apply finish_nonempty|]. split; [reflexivity|].
  intros Hne. unfold splitEscapedString, finish, scan, unescapedDelimiters.
  rewrite length_app, loop_values_length by done. simpl. lia.
Qed.

Lemma splitEscapedString_field_count_witness :
  length (splitEscapedString (runes "a=b\=c=") "="%char "\"%char) = 3%nat
  /\ unescapedDelimiters (runes "a=b\=c=") "="%char "\"%char = 2%nat.
Proof.
  pose proof (splitEscapedString_field_count
                (runes "a=b\=c=") "="%char "\"%char) as (_ & _ & Hlen).
  split; [rewrite Hlen by discriminate|]; reflexivity.
Defined.

(** C3, as stated, fails when the delimiter is also the escape character:
    the escape case of the switch comes first, so a lone [=] starts an
    escape instead of closing a field; one field, not two. *)
Lemma splitEscapedString_same_delimiter_and_escape :
  splitEscapedString ["="%char] "="%char "="%char = [[]]
  /\ unescapedDelimiters ["="%char] "="%char "="%char = 1%nat
  /\ length (splitEscapedString ["="%char] "="%char "="%char)
     <> (unescapedDelimiters ["="%char] "="%char "="%char + 1)%nat.
Proof. repeat split. vm_compute. discriminate. Qed.

(** C7.  A trailing escape character is dropped silently: when scanning
    [value] ends in the unescaped state, [value] followed by one escape
    character splits into exactly the fields of [value]. *)
Theorem splitEscapedString_dangling_escape {rune : Type} `{EqDecision rune}
    (value : list rune) (delimiter escape : rune) :
  escaped (scan value delimiter escape) = false ->
  splitEscapedString (value ++ [escape]) delimiter escape
  = splitEscapedString value delimiter escape.
Proof.
  intros Hesc. unfold splitEscapedString. rewrite scan_snoc.
  unfold step. rewrite Hesc. by rewrite decide_True.
Qed.

Lemma splitEscapedString_dangling_escape_witness :
  splitEscapedString (runes "k=v\") "="%char "\"%char = [runes "k"; runes "v"]
  /\ splitEscapedString (runes "k=v") "="%char "\"%char = [runes "k"; runes "v"].
Proof.
  assert (splitEscapedString (runes "k=v" ++ ["\"%char]) "="%char "\"%char
          = splitEscapedString (runes "k=v") "="%char "\"%char) as Heq
    by (apply splitEscapedString_dangling_escape; reflexivity).
  split; [exact (eq_trans Heq eq_refl)|reflexivity].
Defined.

(** C8.  The example of the source comment and of
    [TestEscapedFieldsArgParser]: the 15-character input splits at its one
    unescaped [=] into two 5-character fields, escaped characters kept. *)
Theorem splitEscapedString_example :
  String.length "foo\\\==\\ba\=r" = 15%nat
  /\ splitEscapedString (runes "foo\\\==\\ba\=r") "="%char "\"%char
     = [runes "foo\="; runes "\ba=r"]
  /\ length (runes "foo\=") = 5%nat
  /\ length (runes "\ba=r") = 5%nat.
Proof. repeat split. Qed.

(** ** The dispatch loop *)

Section ParserFacts.
Context {St : Type}.
Implicit Types (p : bazelArgsParser St) (st : St).
Implicit Types (currentSetter : option (setter St)).

(** One turn of the loop, as the source reads. *)
Lemma parseLoop_body {T : Type} `{scanner T} p currentSetter (sc : T) st :
  parseLoop p currentSetter sc st =
  match Scan sc with
  | (false, _) => (Returned None, st)
  | (true, sc') =>
      match Text sc' with
      | Panicked msg => (Panicked msg, st)
      | Returned token =>
          match args p !! token with
          | Some a => parseLoop p (Some (Setter a)) sc' st
          | None =>
              match currentSetter with
              | None => (Returned (Some (unexpectedFlag token)), st)
              | Some set => parseLoop p currentSetter sc' (set token st)
              end
          end
      end
  end.
Proof.
  rewrite parseLoop_equation_1. unfold Logic.inspect.
  enough (forall r (e : Scan sc = r),
    parseLoop_unfold_clause_1 T _ p currentSetter sc (exist _ r e) st =
    match r with
    | (false, _) => (Returned None, st)
    | (true, sc') =>
        match Text sc' with
        | Panicked msg => (Panicked msg, st)
        | Returned token =>
            match args p !! token with
            | Some a => parseLoop p (Some (Setter a)) sc' st
            | None =>
                match currentSetter with
                | None => (Returned (Some (unexpectedFlag token)), st)
                | Some set => parseLoop p currentSetter sc' (set token st)
                end
            end
        end
    end) as Hgen by apply Hgen.
  intros [[] sc'] Hscan; simp parseLoop; [|done].
  destruct (Text sc') as [token|msg]; simp parseLoop; [|done].
  destruct (args p !! token) as [a|]; simp parseLoop; [done|].
  destruct currentSetter; simp parseLoop; done.
Qed.

(** Over a source that yields [toks], the loop is [dispatch] on [toks]. *)
Lemma parseLoop_yields {T : Type} `{scanner T} p (sc : T) toks :
  yields sc toks ->
  forall currentSetter st,
    parseLoop p currentSetter sc st = dispatch p currentSetter toks st.
Proof.
  induction 1 as [sc sc' Hscan|sc sc' token rest Hscan Htext _ IH];
    intros currentSetter st; rewrite parseLoop_body, Hscan; [done|].
  rewrite Htext. cbn [dispatch].
  destruct (args p !! token); [apply IH|].
  destruct currentSetter; [apply IH|done].
Qed.

(** A slice scanner that has handed out [pre] yields what comes after. *)
Lemma yields_slice (pre rest : list string) :
  yields {| tokens := pre ++ rest;
            lastIndex := Z.of_nat (length pre) - 1 |} rest.
Proof.
  revert pre. induction rest as [|token rest IH]; intros pre.
  - eapply yields_end. cbn [Scan sliceScanner_scanner].
    unfold sliceScanner_Scan; cbn [tokens lastIndex].
    rewrite length_app; cbn [length].
    destruct (Z.ltb_spec (Z.of_nat (length pre) - 1)
                (Z.of_nat (length pre + 0) - 1)); [lia|done].
  - assert ({| tokens := pre ++ token :: rest;
               lastIndex := Z.of_nat (length pre) - 1 + 1 |}
            = {| tokens := (pre ++ [token]) ++ rest;
                 lastIndex := Z.of_nat (length (pre ++ [token])) - 1 |})
      as Hnext.
    { rewrite <- app_assoc, length_app. cbn [length app]. f_equal. lia. }
    eapply yields_token; [| |].
    + cbn [Scan sliceScanner_scanner].
      unfold sliceScanner_Scan; cbn [tokens lastIndex].
      rewrite length_app; cbn [length].
      destruct (Z.ltb_spec (Z.of_nat (length pre) - 1)
                  (Z.of_nat (length pre + S (length rest)) - 1)); [done|lia].
    + cbn [Text sliceScanner_scanner].
      unfold sliceScanner_Text; cbn [tokens lastIndex].
      destruct (Z.ltb_spec (Z.of_nat (length pre) - 1 + 1) 0); [lia|].
      replace (Z.to_nat (Z.of_nat (length pre) - 1 + 1)) with (length pre)
        by lia.
      by rewrite list_lookup_middle.
    + rewrite Hnext. apply IH.
Qed.

Lemma yields_newSliceScanner (toks : list string) :
  yields (newSliceScanner toks) toks.
Proof. apply (yields_slice [] toks). Qed.

Lemma parseBazelArguments_slice p (toks : list string) st :
  parseBazelArguments p (newSliceScanner toks) st = dispatch p None toks st.
Proof. apply parseLoop_yields, yields_newSliceScanner. Qed.

(** [dispatch] itself never panics. *)
Lemma dispatch_no_panic p toks currentSetter st msg :
  (dispatch p currentSetter toks st).1 <> Panicked msg.
Proof.
  revert currentSetter st. induction toks as [|token toks IH];
    intros currentSetter st; cbn [dispatch]; [done|].
  destruct (args p !! token); [apply IH|].
  destruct currentSetter; [apply IH|done].
Qed.

(** Whatever every registered callback preserves, the loop preserves,
    over any token source and on every exit. *)
Lemma parseLoop_invariant {T : Type} `{scanner T} (I : St -> Prop) p :
  settersPreserve I p ->
  forall (sc : T) currentSetter st,
    (forall set, currentSetter = Some set ->
                 forall value st', I st' -> I (set value st')) ->
    I st -> I (parseLoop p currentSetter sc st).2.
Proof.
  intros Hp sc. remember (pending sc) as n eqn:Hn. revert sc Hn.
  induction n as [n IHn] using lt_wf_ind.
  intros sc -> currentSetter st Hcur Hst.
  rewrite parseLoop_body.
  destruct (Scan sc) as [[] sc'] eqn:Hscan; [|done].
  apply Scan_pending in Hscan.
  destruct (Text sc') as [token|msg]; [|done].
  destruct (args p !! token) as [a|] eqn:Ha.
  - eapply IHn; [exact Hscan|reflexivity| |done].
    intros set [= <-]. apply (Hp _ _ Ha).
  - destruct currentSetter as [set|]; [|done].
    eapply IHn; [exact Hscan|reflexivity|done|].
    by apply (Hcur set).
Qed.

(** The loop panics only where [Text] does. *)
Lemma parseLoop_no_panic {T : Type} `{scanner T} p :
  (forall sc : T, exists token, Text sc = Returned token) ->
  forall (sc : T) currentSetter st msg,
    (parseLoop p currentSetter sc st).1 <> Panicked msg.
Proof.
  intros Htext sc. remember (pending sc) as n eqn:Hn. revert sc Hn.
  induction n as [n IHn] using lt_wf_ind.
  intros sc -> currentSetter st msg.
  rewrite parseLoop_body.
  destruct (Scan sc) as [[] sc'] eqn:Hscan; [|done].
  apply Scan_pending in Hscan.
  destruct (Htext sc') as [token ->].
  destruct (args p !! token) as [a|]; [by eapply IHn|].
  destruct currentSetter as [set|]; [by eapply IHn|done].
Qed.

(** [Parse] adds to the loop one call of the stream provider at most. *)
Lemma Parse_invariant (I : St -> Prop) p :
  settersPreserve I p ->
  (forall path st, I st -> I (paramsReaderGetter p path st).2) ->
  forall arguments st, I st -> I (Parse p arguments st).2.
Proof.
  intros Hp Hget arguments st Hst. unfold Parse, parseBazelArguments.
  destruct arguments as [|firstArgument rest]; [done|].
  destruct (String.get 0 firstArgument) as [c|]; [|done].
  destruct (negb (bool_decide (c = "@"%char))).
  { by apply parseLoop_invariant. }
  destruct (bool_decide (1 < length (firstArgument :: rest))%nat); [done|].
  specialize (Hget (String.substring 1 (String.length firstArgument - 1)
                      firstArgument) st Hst).
  destruct (paramsReaderGetter p _ st) as [[paramsReader|err] st1]; [|done].
  by apply parseLoop_invariant.
Qed.

(** A run of value tokens goes, one call each, to the active callback. *)
Lemma dispatch_run p (set : setter St) (run rest : list string) st :
  Forall (fun value => args p !! value = None) run ->
  dispatch p (Some set) (run ++ rest) st
  = dispatch p (Some set) rest
      (fold_left (fun st' value => set value st') run st).
Proof.
  intros Hrun. revert st.
  induction Hrun as [|value run Hvalue _ IH]; intros st; [done|].
  cbn [app dispatch fold_left]. rewrite Hvalue. apply IH.
Qed.

Lemma dispatch_groups p groups currentSetter st :
  wellGrouped p groups ->
  dispatch p currentSetter (tokensOf groups) st
  = (Returned None, deliver p groups st).
Proof.
  intros Hgroups. revert currentSetter st.
  induction Hgroups as [|[flag run] groups [[a Ha] Hrun] _ IH];
    intros currentSetter st; [done|].
  unfold tokensOf, deliver in *. cbn [fmap list_fmap concat fold_left].
  cbn [fst snd app dispatch] in *. unfold deliverRun at 2. cbn [fst snd].
  rewrite Ha, dispatch_run by done. apply IH.
Qed.

(** The direct path of [Parse]. *)
Lemma Parse_direct p firstArgument rest st c :
  String.get 0 firstArgument = Some c -> c <> "@"%char ->
  Parse p (firstArgument :: rest) st
  = dispatch p None (firstArgument :: rest) st.
Proof.
  intros Hget Hc. unfold Parse. rewrite Hget.
  rewrite bool_decide_eq_false_2 by done. cbn [negb].
  apply parseBazelArguments_slice.
Qed.

End ParserFacts.

(** C4.  With [--a] and [--b] registered (and [x], [y], [z] not), parsing
    [--a x y --b z] succeeds after calling the [--a] callback on [x], then
    on [y], then the [--b] callback on [z], and nothing else.  In general,
    over any token source, each run of value tokens is handed in stream
    order to the callback of the flag token before it; flag tokens are
    not handed to any callback. *)
Theorem flag_grouping {St : Type} (p : bazelArgsParser St) :
  (forall a b st,
      args p !! "--a" = Some a -> args p !! "--b" = Some b ->
      args p !! "x" = None -> args p !! "y" = None -> args p !! "z" = None ->
      Parse p ["--a"; "x"; "y"; "--b"; "z"] st
      = (Returned None, Setter b "z" (Setter a "y" (Setter a "x" st))))
  /\ (forall (T : Type) `(scanner T) (sc : T) groups st,
         yields sc (tokensOf groups) -> wellGrouped p groups ->
         parseBazelArguments p sc st = (Returned None, deliver p groups st)).
Proof.
  split.
  - intros a b st Ha Hb Hx Hy Hz.
    rewrite (Parse_direct p _ _ st "-"%char) by done.
    cbn [dispatch]. by rewrite Ha, Hx, Hy, Hb, Hz.
  - intros T HT sc groups st Hyields Hgroups. unfold parseBazelArguments.
    rewrite (parseLoop_yields p sc _ Hyields). by apply dispatch_groups.
Qed.

Lemma flag_grouping_witness :
  Parse (testParser ["--a"; "--b"] {| ReaderContents := ""; GetterErr := None |})
    ["--a"; "x"; "y"; "--b"; "z"] freshTest
  = (Returned None,
     {| calls := [("--a", "x"); ("--a", "y"); ("--b", "z")];
        paramsReaderGetterCallsCount := 0;
        requestedParamsPath := "" |}).
Proof.
  apply (proj1 (flag_grouping _)
           {| Setter := logCall "--a" |} {| Setter := logCall "--b" |});
    reflexivity.
Defined.

(** C5.  With [x] not registered, parsing [x --a y] fails with the error
    [unexpected flag x] and leaves the state as it was: no callback has
    run.  In general, over any token source, a first token that is not a
    registered flag ends the loop with that error, naming the token. *)
Theorem leading_value_rejected {St : Type} (p : bazelArgsParser St) :
  (forall st, args p !! "x" = None ->
      Parse p ["x"; "--a"; "y"] st
      = (Returned (Some "unexpected flag x"), st))
  /\ (forall (T : Type) `(scanner T) (sc : T) token rest st,
         yields sc (token :: rest) -> args p !! token = None ->
         parseBazelArguments p sc st
         = (Returned (Some ("unexpected flag " +:+ token)), st)).
Proof.
  split.
  - intros st Hx. rewrite (Parse_direct p _ _ st "x"%char) by done.
    cbn [dispatch]. by rewrite Hx.
  - intros T HT sc token rest st Hyields Htoken. unfold parseBazelArguments.
    rewrite (parseLoop_yields p sc _ Hyields). cbn [dispatch].
    by rewrite Htoken.
Qed.

Lemma leading_value_rejected_witness :
  Parse (testParser ["--a"] {| ReaderContents := ""; GetterErr := None |})
    ["x"; "--a"; "y"] freshTest
  = (Returned (Some "unexpected flag x"), freshTest).
Proof. apply (proj1 (leading_value_rejected _)). reflexivity. Defined.

(** C6.  When the first argument begins with [@] and another argument
    follows, [Parse] fails with the usage error and the state is as
    before, whatever the stream provider is: it has not been called. *)
Theorem indirection_exclusive {St : Type} (p : bazelArgsParser St)
    (getter : paramsReaderGetterFn) (first extra : string)
    (rest : list string) (st : St) :
  String.get 0 first = Some "@"%char ->
  Parse (WithParamsReaderGetter p getter) (first :: extra :: rest) st
  = (Returned (Some usageError), st).
Proof. intros Hfirst. unfold Parse. by rewrite Hfirst. Qed.

Lemma indirection_exclusive_witness :
  Parse (WithParamsReaderGetter (testParser ["--a"] {| ReaderContents := ""; GetterErr := None |})
           (mockGetter {| ReaderContents := "--a"; GetterErr := None |}))
    ["@file.txt"; "extra"] freshTest
  = (Returned (Some "expected single argument with param file"),
     {| calls := []; paramsReaderGetterCallsCount := 0;
        requestedParamsPath := "" |}).
Proof. apply indirection_exclusive. reflexivity. Defined.

(** C9.  [Parse] reads byte 0 of the first argument unguarded.  With an
    empty first argument the index is out of range and [Parse] panics,
    the state untouched; with a non-empty one the byte is there, and
    [Parse] does not panic. *)
Theorem Parse_first_byte {St : Type} (p : bazelArgsParser St) (st : St) :
  (forall rest,
      Parse p ("" :: rest) st
      = (Panicked "index out of range [0] with length 0", st))
  /\ (forall first rest, first <> "" ->
         is_Some (String.get 0 first)
         /\ forall msg, (Parse p (first :: rest) st).1 <> Panicked msg).
Proof.
  split; [done|]. intros first rest Hfirst.
  destruct first as [|c first]; [done|]. split; [by eexists|].
  intros msg. unfold Parse. cbn [String.get].
  destruct (negb (bool_decide (c = "@"%char))).
  { rewrite parseBazelArguments_slice. apply dispatch_no_panic. }
  destruct (bool_decide (1 < length (String c first :: rest))%nat); [done|].
  destruct (paramsReaderGetter p _ st) as [[paramsReader|err] st1]; [|done].
  apply parseLoop_no_panic. intros sc. by eexists.
Qed.

Lemma Parse_first_byte_witness :
  Parse (testParser ["--a"] {| ReaderContents := ""; GetterErr := None |})
    [""] freshTest
  = (Panicked "index out of range [0] with length 0", freshTest)
  /\ is_Some (String.get 0 "--a")
  /\ (Parse (testParser ["--a"] {| ReaderContents := ""; GetterErr := None |})
        ["--a"; "v"] freshTest).1
     <> Panicked "index out of range [0] with length 0".
Proof.
  split; [apply (proj1 (Parse_first_byte _ freshTest))|].
  destruct (proj2 (Parse_first_byte
                     (testParser ["--a"]
                        {| ReaderContents := ""; GetterErr := None |})
                     freshTest) "--a" ["v"]) as [Hbyte Hpanic];
    [discriminate|].
  split; [exact Hbyte|apply Hpanic].
Defined.

(** ** The archive command line *)

Lemma archiveParser_settersPreserve (I : env -> Prop) :
  (forall value e, I e -> I (setID value e)) ->
  (forall value e, I e -> I (setPkgPath value e)) ->
  (forall value e, I e -> I (setExportFile value e)) ->
  (forall value e, I e -> I (addDataSrc value e)) ->
  (forall value e, I e -> I (addDirectPkg value e)) ->
  (forall value e, I e -> I (setOutputPath value e)) ->
  settersPreserve I archiveParser.
Proof.
  intros. unfold settersPreserve, archiveParser, WithArg; cbn [args].
  repeat apply map_Forall_insert_2; done.
Qed.

Lemma substring_all (s : string) : String.substring 0 (String.length s) s = s.
Proof. induction s as [|c s IH]; simpl; [done|]. by rewrite IH. Qed.

(** C2 (amended).  [Parse] has no release step.  With the default stream
    provider ([os.Open]) and callbacks that leave the open files alone, the
    parameter file opened in the indirection path is still open when
    [Parse] returns, whether the dispatch loop succeeded or failed. *)
Theorem Parse_leaves_stream_open (p : bazelArgsParser env)
    (path content : string) (e : env) :
  paramsReaderGetter p = os_Open ->
  (forall opened,
      settersPreserve (fun e' => openFiles (fs e') = opened) p) ->
  files (fs e) !! path = Some content ->
  openFiles (fs (Parse p [String "@" path] e).2) = path :: openFiles (fs e).
Proof.
  intros Hgetter Hsetters Hfile. unfold Parse, parseBazelArguments.
  cbn [String.get negb bool_decide length String.length Nat.sub].
  rewrite bool_decide_eq_true_2 by done. cbn [negb].
  rewrite bool_decide_eq_false_2 by (simpl; lia).
  rewrite Hgetter. cbn [os_Open env_OS String.substring].
  rewrite Nat.sub_0_r, substring_all. unfold env_Open. rewrite Hfile.
  by apply (parseLoop_invariant
              (fun e' => openFiles (fs e') = path :: openFiles (fs e))).
Qed.

Lemma archiveParser_keeps_openFiles (opened : list string) :
  settersPreserve (fun e' => openFiles (fs e') = opened) archiveParser.
Proof. by apply archiveParser_settersPreserve. Qed.

Lemma Parse_leaves_stream_open_witness :
  openFiles (fs (Parse archiveParser ["@params.txt"]
                   {| arch := newArchive; outputPath := "";
                      fs := oneFile "params.txt" badParams |}).2)
  = ["params.txt"].
Proof.
  apply (Parse_leaves_stream_open archiveParser "params.txt" badParams
           {| arch := newArchive; outputPath := "";
              fs := oneFile "params.txt" badParams |});
    [reflexivity|apply archiveParser_keeps_openFiles|reflexivity].
Defined.

(** C2, as stated, fails: after a successful parse of a parameter file,
    and after a parse on which the dispatch loop fails, the file opened by
    the stream provider is still open. *)
Lemma parameter_file_not_released :
  (parseArchiveAndOutputPath ["@params.txt"] newArchive
     (oneFile "params.txt" goodParams)).1
  = Returned ("out.json", None)
  /\ ~ released "params.txt"
       (parseArchiveAndOutputPath ["@params.txt"] newArchive
          (oneFile "params.txt" goodParams)).2
  /\ (parseArchiveAndOutputPath ["@params.txt"] newArchive
        (oneFile "params.txt" badParams)).1
     = Returned ("", Some "unexpected flag lib")
  /\ ~ released "params.txt"
       (parseArchiveAndOutputPath ["@params.txt"] newArchive
          (oneFile "params.txt" badParams)).2.
Proof.
  assert (forall content,
    content = goodParams \/ content = badParams ->
    openFiles (fs (parseArchiveAndOutputPath ["@params.txt"] newArchive
                     (oneFile "params.txt" content)).2) = ["params.txt"])
    as Hopen by (intros content [-> | ->]; vm_compute; reflexivity).
  unfold released. rewrite !Hopen by auto.
  split; [vm_compute; reflexivity|]. split; [set_solver|].
  split; [vm_compute; reflexivity|set_solver].
Qed.

(** The two source lists agree. *)
Lemma addDataSrc_keeps_agreement (value : string) (e : env) :
  GoFiles (arch e) = CompiledGoFiles (arch e) ->
  GoFiles (arch (addDataSrc value e))
  = CompiledGoFiles (arch (addDataSrc value e)).
Proof.
  intros Heq. unfold addDataSrc, withArch; cbn [arch].
  destruct (HasSuffix value ".go"); cbn [GoFiles CompiledGoFiles];
    by rewrite ?Heq.
Qed.

Lemma env_Open_keeps_arch (path : string) (e : env) :
  arch (env_Open path e).2 = arch e.
Proof. unfold env_Open. by destruct (files (fs e) !! path). Qed.

(** C10.  Starting from an archive with no Go files and no compiled Go
    files, the two lists are equal after every run of
    [parseArchiveAndOutputPath], however it ends.  The [--data-srcs]
    callback appends a value ending in [.go] to both lists and changes
    neither otherwise; no other registered callback changes either list. *)
Theorem GoFiles_agree_with_CompiledGoFiles (arguments : list string)
    (a : archive) (os : fileSystem) :
  GoFiles a = [] -> CompiledGoFiles a = [] ->
  GoFiles (arch (parseArchiveAndOutputPath arguments a os).2)
  = CompiledGoFiles (arch (parseArchiveAndOutputPath arguments a os).2)
  /\ (forall value e,
         GoFiles (arch (addDataSrc value e))
         = GoFiles (arch e) ++ (if HasSuffix value ".go" then [value] else [])
         /\ CompiledGoFiles (arch (addDataSrc value e))
            = CompiledGoFiles (arch e)
              ++ (if HasSuffix value ".go" then [value] else []))
  /\ (forall flag callback value e,
         args archiveParser !! flag = Some callback ->
         flag <> "--data-srcs" ->
         GoFiles (arch (Setter callback value e)) = GoFiles (arch e)
         /\ CompiledGoFiles (arch (Setter callback value e))
            = CompiledGoFiles (arch e)).
Proof.
  intros Hgo Hcompiled. split; [|split].
  - assert (GoFiles (arch (Parse archiveParser arguments
                             {| arch := a; outputPath := ""; fs := os |}).2)
            = CompiledGoFiles
                (arch (Parse archiveParser arguments
                         {| arch := a; outputPath := ""; fs := os |}).2))
      as Hparse.
    { apply (Parse_invariant
               (fun e => GoFiles (arch e) = CompiledGoFiles (arch e))).
      - apply archiveParser_settersPreserve; try done.
        apply addDataSrc_keeps_agreement.
      - intros path st Hst. cbn [paramsReaderGetter archiveParser WithArg
          NewBazelArgsParser os_Open env_OS].
        by rewrite env_Open_keeps_arch.
      - cbn [arch]. by rewrite Hgo, Hcompiled. }
    unfold parseArchiveAndOutputPath.
    destruct (Parse archiveParser arguments _) as [[[err|]|msg] e];
      cbn [snd] in *; try done.
    by destruct (decide (outputPath e = "")).
  - intros value e. unfold addDataSrc, withArch; cbn [arch].
    destruct (HasSuffix value ".go"); cbn [GoFiles CompiledGoFiles];
      by rewrite ?app_nil_r.
  - intros flag callback value e Hlookup Hflag.
    unfold archiveParser, WithArg in Hlookup; cbn [args] in Hlookup.
    repeat (apply lookup_insert_Some in Hlookup
            as [[<- <-]|[_ Hlookup]]; [try done|]).
    done.
Qed.

Lemma GoFiles_agree_with_CompiledGoFiles_witness :
  GoFiles (arch (parseArchiveAndOutputPath
                   ["--data-srcs"; "a.go"; "BUILD"; "b.go";
                    "--output-file"; "out.json"]
                   newArchive (oneFile "params.txt" goodParams)).2)
  = CompiledGoFiles
      (arch (parseArchiveAndOutputPath
               ["--data-srcs"; "a.go"; "BUILD"; "b.go";
                "--output-file"; "out.json"]
               newArchive (oneFile "params.txt" goodParams)).2).
Proof.
  apply (GoFiles_agree_with_CompiledGoFiles
           ["--data-srcs"; "a.go"; "BUILD"; "b.go";
            "--output-file"; "out.json"]
           newArchive (oneFile "params.txt" goodParams));
    reflexivity.
Defined.

(** C1 does not hold of the code: the [--direct-pkg] callback drops the
    error of [parseKeyValueArg].  The token [novalue] has no [=], so
    [parseKeyValueArg] reports it, and yet the run succeeds with the output
    path and an archive whose imports are unchanged. *)
Theorem direct_pkg_error_dropped (a : archive) (os : fileSystem) :
  parseKeyValueArg "novalue" (Imports a)
  = (Some "could not parse key value pair: novalue", Imports a)
  /\ (parseArchiveAndOutputPath
        ["--direct-pkg"; "novalue"; "--output-file"; "out.json"] a os).1
     = Returned ("out.json", None)
  /\ arch (parseArchiveAndOutputPath
             ["--direct-pkg"; "novalue"; "--output-file"; "out.json"] a os).2
     = a.
Proof.
  split; [reflexivity|].
  unfold parseArchiveAndOutputPath.
  rewrite (Parse_direct archiveParser _ _ _ "-"%char) by done.
  destruct a. split; reflexivity.
Qed.

(** ** The repository's tests, run on the embedding *)

(** [TestEscapedFieldsArgParser], second case. *)
Example test_escaped_fields_2 :
  splitEscapedString (runes "\=baz\==\=\\") "="%char "\"%char
  = [runes "=baz="; runes "=\"].
Proof. reflexivity. Qed.

(** [TestBazelParser], case [FromArgsOk]. *)
Example test_FromArgsOk :
  Parse (testParser ["--id"; "--pkg-path"]
           {| ReaderContents := ""; GetterErr := None |})
    ["--id"; "foo"; "bar"; "--pkg-path"; "bar"; "baz"] freshTest
  = (Returned None,
     {| calls := [("--id", "foo"); ("--id", "bar");
                  ("--pkg-path", "bar"); ("--pkg-path", "baz")];
        paramsReaderGetterCallsCount := 0; requestedParamsPath := "" |}).
Proof. vm_compute. reflexivity. Qed.

(** [TestBazelParser], case [FromParamsOk]: the provider is called once,
    with the path behind the marker, and the lines are the tokens. *)
Example test_FromParamsOk :
  Parse (testParser ["--arg1"; "--arg2"]
           {| ReaderContents :=
                "--arg1" +:+ String newline ("foo" +:+ String newline
                  ("bar" +:+ String newline ("baz" +:+ String newline
                    ("--arg2" +:+ String newline
                      ("bar" +:+ String newline "baz")))));
              GetterErr := None |})
    ["@params.txt"] freshTest
  = (Returned None,
     {| calls := [("--arg1", "foo"); ("--arg1", "bar"); ("--arg1", "baz");
                  ("--arg2", "bar"); ("--arg2", "baz")];
        paramsReaderGetterCallsCount := 1;
        requestedParamsPath := "params.txt" |}).
Proof. vm_compute. reflexivity. Qed.

(** [TestBazelParser], case [FromParamsUnknownFirstArg]. *)
Example test_FromParamsUnknownFirstArg :
  Parse (testParser []
           {| ReaderContents :=
                "--arg3" +:+ String newline ("--arg2" +:+ String newline
                  ("bar" +:+ String newline "baz"));
              GetterErr := None |})
    ["@params.txt"] freshTest
  = (Returned (Some "unexpected flag --arg3"),
     {| calls := []; paramsReaderGetterCallsCount := 1;
        requestedParamsPath := "params.txt" |}).
Proof. vm_compute. reflexivity. Qed.

(** [TestBazelParser], case [FromParamsCannotGetReader]: the provider's
    error is returned as it is. *)
Example test_FromParamsCannotGetReader :
  Parse (testParser []
           {| ReaderContents := ""; GetterErr := Some "an error" |})
    ["@params.txt"] freshTest
  = (Returned (Some "an error"),
     {| calls := []; paramsReaderGetterCallsCount := 1;
        requestedParamsPath := "params.txt" |}).
Proof. vm_compute. reflexivity. Qed.

(** * Further properties of the code *)

(** ** [splitEscapedString] *)

Section SplitterMore.
Context {rune : Type} `{EqDecision rune}.
Implicit Types (value f : list rune) (delimiter escape r : rune).
Implicit Types (st : loopState (rune := rune)).

(** Scanning an encoded field in the unescaped state appends the field. *)
Lemma loop_escapeField delimiter escape f st :
  escaped st = false ->
  fold_left (step delimiter escape) (escapeField delimiter escape f) st
  = {| field := field st ++ f; escaped := false; values := values st |}.
Proof.
  revert st. induction f as [|r f IH]; intros [fld esc vals] Hesc;
    simpl in *; subst esc.
  { by rewrite app_nil_r. }
  unfold escapeField in *. cbn [flat_map].
  destruct (decide (r = escape)) as [->|Hre].
  - cbn [app fold_left]. unfold step at 2 3; cbn.
    rewrite decide_True by done. cbn.
    rewrite IH by done. cbn. by rewrite <- app_assoc.
  - destruct (decide (r = delimiter)) as [->|Hrd].
    + cbn [app fold_left]. unfold step at 2 3; cbn.
      rewrite decide_True by done. cbn.
      rewrite IH by done. cbn. by rewrite <- app_assoc.
    + cbn [app fold_left]. unfold step at 2; cbn.
      rewrite !decide_False by done. cbn.
      rewrite IH by done. cbn. by rewrite <- app_assoc.
Qed.

Lemma loop_joinFields delimiter escape fields f st :
  delimiter <> escape -> escaped st = false ->
  finish (fold_left (step delimiter escape)
            (joinFields delimiter escape (f :: fields)) st)
  = values st ++ (field st ++ f) :: fields.
Proof.
  intros Hne. revert f st.
  induction fields as [|g fields IH]; intros f st Hesc.
  - cbn [joinFields]. by rewrite loop_escapeField.
  - change (joinFields delimiter escape (f :: g :: fields))
      with (escapeField delimiter escape f
            ++ delimiter :: joinFields delimiter escape (g :: fields)).
    rewrite fold_left_app, loop_escapeField by done.
    cbn [fold_left].
    assert (step delimiter escape
              {| field := field st ++ f; escaped := false;
                 values := values st |} delimiter
            = {| field := []; escaped := false;
                 values := values st ++ [field st ++ f] |}) as ->.
    { unfold step; cbn [escaped field values].
      rewrite decide_False by done. by rewrite decide_True. }
    rewrite IH by done. cbn [field values app].
    by rewrite <- app_assoc.
Qed.

Lemma loop_kept_sublist delimiter escape value st (consumed : list rune) :
  kept st `sublist_of` consumed ->
  kept (fold_left (step delimiter escape) value st)
    `sublist_of` consumed ++ value.
Proof.
  revert st consumed.
  induction value as [|r value IH]; intros st consumed Hst.
  { by rewrite app_nil_r. }
  cbn [fold_left].
  replace (consumed ++ r :: value) with ((consumed ++ [r]) ++ value)
    by (by rewrite <- app_assoc).
  apply IH. unfold step, kept in *.
  destruct (escaped st); cbn.
  { rewrite app_assoc. by apply sublist_app. }
  destruct (decide (r = escape)); cbn.
  { by apply sublist_inserts_r. }
  destruct (decide (r = delimiter)); cbn.
  - rewrite concat_app. cbn. rewrite !app_nil_r.
    by apply sublist_inserts_r.
  - rewrite app_assoc. by apply sublist_app.
Qed.

Lemma loop_weight delimiter escape value st :
  weight (fold_left (step delimiter escape) value st)
  <= weight st + length value.
Proof.
  revert st. induction value as [|r value IH]; intros st; cbn [fold_left].
  { simpl. lia. }
  etrans; [apply IH|]. cbn [length].
  enough (weight (step delimiter escape st r) <= weight st + 1) by lia.
  unfold step, weight, kept.
  destruct (escaped st); cbn.
  { rewrite !length_app. cbn. lia. }
  destruct (decide (r = escape)); cbn; [lia|].
  destruct (decide (r = delimiter)); cbn.
  - rewrite concat_app, !length_app. cbn. rewrite !length_app. cbn. lia.
  - rewrite !length_app. cbn. lia.
Qed.

End SplitterMore.

(** X1.  Decoding inverts the encoding: when the delimiter is not the
    escape character, splitting the encoding of a non-empty list of fields
    gives back exactly those fields, whatever characters they contain. *)
Theorem splitEscapedString_joinFields {rune : Type} `{EqDecision rune}
    (delimiter escape : rune) (fields : list (list rune)) :
  delimiter <> escape -> fields <> [] ->
  splitEscapedString (joinFields delimiter escape fields) delimiter escape
  = fields.
Proof.
  intros Hne Hfields. destruct fields as [|f fields]; [done|].
  unfold splitEscapedString, scan.
  by rewrite loop_joinFields.
Qed.

Lemma splitEscapedString_joinFields_witness :
  joinFields "="%char "\"%char [runes "a=b"; runes "c\d"] = runes "a\=b=c\\d"
  /\ splitEscapedString (runes "a\=b=c\\d") "="%char "\"%char
     = [runes "a=b"; runes "c\d"].
Proof.
  split; [reflexivity|].
  exact (splitEscapedString_joinFields "="%char "\"%char
           [runes "a=b"; runes "c\d"] ltac:(discriminate) ltac:(discriminate)).
Defined.

(** X2.  The splitter only drops characters: the fields, one after the
    other, are a subsequence of the input.  Nothing is added, nothing is
    reordered. *)
Theorem splitEscapedString_sublist {rune : Type} `{EqDecision rune}
    (value : list rune) (delimiter escape : rune) :
  concat (splitEscapedString value delimiter escape) `sublist_of` value.
Proof.
  unfold splitEscapedString, finish, scan.
  rewrite concat_app. cbn. rewrite app_nil_r.
  apply (loop_kept_sublist delimiter escape value initial []).
  constructor.
Qed.

(** X3.  The fields fit in the input: their lengths and the delimiters
    between them add up to at most the length of the input. *)
Theorem splitEscapedString_size {rune : Type} `{EqDecision rune}
    (value : list rune) (delimiter escape : rune) :
  length (concat (splitEscapedString value delimiter escape))
  + (length (splitEscapedString value delimiter escape) - 1)
  <= length value.
Proof.
  pose proof (loop_weight delimiter escape value initial) as Hw.
  unfold splitEscapedString, finish, scan.
  unfold weight, kept in Hw. cbn in Hw.
  rewrite concat_app, !length_app. cbn. rewrite app_nil_r.
  rewrite length_app in Hw.
  destruct (escaped _); lia.
Qed.

(** X4.  An input without delimiter and without escape character is one
    field, the input itself. *)
Theorem splitEscapedString_plain {rune : Type} `{EqDecision rune}
    (value : list rune) (delimiter escape : rune) :
  delimiter ∉ value -> escape ∉ value ->
  splitEscapedString value delimiter escape = [value].
Proof.
  intros Hd He.
  assert (forall st, escaped st = false ->
            fold_left (step delimiter escape) value st
            = {| field := field st ++ value; escaped := false;
                 values := values st |}) as Hloop.
  { clear -Hd He. induction value as [|r value IH]; intros [fld esc vals] Hesc;
      simpl in *; subst esc.
    { by rewrite app_nil_r. }
    apply not_elem_of_cons in Hd as [? ?], He as [? ?].
    unfold step at 2; cbn. rewrite !decide_False by done.
    rewrite IH by done. cbn. by rewrite <- app_assoc. }
  unfold splitEscapedString, scan. by rewrite Hloop.
Qed.

Lemma splitEscapedString_plain_witness :
  splitEscapedString (runes "novalue") "="%char "\"%char = [runes "novalue"].
Proof.
  apply splitEscapedString_plain; unfold runes; cbn; intros Hin;
    repeat (apply elem_of_cons in Hin as [Hin|Hin]; [discriminate|]);
    by apply elem_of_nil in Hin.
Defined.

(** ** The token sources *)

Lemma scanned_lastIndex (toks : list string) (k : nat) :
  tokens (scanned k (newSliceScanner toks)) = toks
  /\ lastIndex (scanned k (newSliceScanner toks))
     = (Z.of_nat (k `min` length toks) - 1)%Z.
Proof.
  induction k as [|k [IHt IHi]]; [by split|].
  unfold scanned in *. rewrite Nat.iter_succ.
  set (sc := Nat.iter k _ _) in *.
  cbn [Scan sliceScanner_scanner]. unfold sliceScanner_Scan.
  rewrite IHt, IHi.
  destruct (Z.ltb_spec (Z.of_nat (k `min` length toks) - 1)
              (Z.of_nat (length toks) - 1));
    cbn [snd tokens lastIndex]; split; try done; lia.
Qed.

(** X5.  The in-memory token source after any number of calls of [Scan]:
    it stands on token [min k len], counted from one; [Scan] reports
    another token exactly while [k < len] and changes nothing past the
    end; [Text] is the empty string before the first [Scan], the token
    stood on afterwards, and never indexes out of range. *)
Theorem sliceScanner_after_scans (toks : list string) (k : nat) :
  lastIndex (scanned k (newSliceScanner toks))
  = (Z.of_nat (k `min` length toks) - 1)%Z
  /\ (Scan (scanned k (newSliceScanner toks))).1
     = bool_decide (k < length toks)
  /\ Text (scanned k (newSliceScanner toks))
     = Returned (match k with
                 | 0 => ""
                 | S _ => default "" (toks !! (k `min` length toks - 1))
                 end)
  /\ (length toks <= k ->
      (Scan (scanned k (newSliceScanner toks))).2
      = scanned k (newSliceScanner toks)).
Proof.
  destruct (scanned_lastIndex toks k) as [Ht Hi].
  set (sc := scanned k (newSliceScanner toks)) in *.
  split; [done|]. split; [|split].
  - cbn [Scan sliceScanner_scanner]. unfold sliceScanner_Scan.
    rewrite Ht, Hi.
    destruct (Z.ltb_spec (Z.of_nat (k `min` length toks) - 1)
                (Z.of_nat (length toks) - 1)); cbn [fst].
    + by rewrite bool_decide_eq_true_2 by lia.
    + by rewrite bool_decide_eq_false_2 by lia.
  - cbn [Text sliceScanner_scanner]. unfold sliceScanner_Text.
    rewrite Ht, Hi.
    destruct (Z.ltb_spec (Z.of_nat (k `min` length toks) - 1) 0).
    + destruct k; [done|]. destruct toks; [done|]. simpl in *. lia.
    + destruct k; [simpl in *; lia|].
      replace (Z.to_nat (Z.of_nat (S k `min` length toks) - 1))
        with (S k `min` length toks - 1) by lia.
      destruct (lookup_lt_is_Some_2 toks (S k `min` length toks - 1))
        as [t Hlook]; [lia|]. by rewrite Hlook.
  - intros Hk. cbn [Scan sliceScanner_scanner]. unfold sliceScanner_Scan.
    rewrite Ht, Hi.
    destruct (Z.ltb_spec (Z.of_nat (k `min` length toks) - 1)
                (Z.of_nat (length toks) - 1)); [lia|done].
Qed.

Lemma sliceScanner_after_scans_witness :
  Text (scanned 0 (newSliceScanner ["--id"; "lib"])) = Returned ""
  /\ Text (scanned 2 (newSliceScanner ["--id"; "lib"])) = Returned "lib"
  /\ (Scan (scanned 5 (newSliceScanner ["--id"; "lib"]))).2
     = scanned 5 (newSliceScanner ["--id"; "lib"]).
Proof.
  split; [exact (proj1 (proj2 (proj2
                   (sliceScanner_after_scans ["--id"; "lib"] 0))))|].
  split; [exact (proj1 (proj2 (proj2
                   (sliceScanner_after_scans ["--id"; "lib"] 2))))|].
  apply (proj2 (proj2 (proj2 (sliceScanner_after_scans ["--id"; "lib"] 5)))).
  simpl. lia.
Defined.

(** ** Registration and the entry point *)

Section ParserMore.
Context {St : Type}.
Implicit Types (p : bazelArgsParser St) (st : St).
Implicit Types (currentSetter : option (setter St)).

(** The loop reads the parser's flag table and nothing else of it. *)
Lemma dispatch_same_args p p' toks currentSetter st :
  args p = args p' ->
  dispatch p currentSetter toks st = dispatch p' currentSetter toks st.
Proof.
  intros Hargs. revert currentSetter st.
  induction toks as [|token toks IH]; intros currentSetter st;
    cbn [dispatch]; [done|].
  rewrite <- Hargs. destruct (args p !! token); [apply IH|].
  destruct currentSetter; [apply IH|done].
Qed.

(** Once a callback is active the loop cannot fail. *)
Lemma dispatch_active_succeeds p toks (set : setter St) st :
  (dispatch p (Some set) toks st).1 = Returned None.
Proof.
  revert set st. induction toks as [|token toks IH]; intros set st;
    cbn [dispatch]; [done|].
  destruct (args p !! token); apply IH.
Qed.

End ParserMore.

(** X6.  Registering a flag again replaces its callback: the parser is the
    one in which only the second registration was made, and a value after
    the flag goes to the second callback alone. *)
Theorem WithArg_last_wins {St : Type} (p : bazelArgsParser St)
    (flag : string) (first second : setter St) :
  WithArg (WithArg p flag first) flag second = WithArg p flag second
  /\ (forall value st,
         value <> flag -> args p !! value = None ->
         parseBazelArguments (WithArg (WithArg p flag first) flag second)
           (newSliceScanner [flag; value]) st
         = (Returned None, second value st)).
Proof.
  assert (WithArg (WithArg p flag first) flag second = WithArg p flag second)
    as Heq.
  { unfold WithArg; cbn [args paramsReaderGetter].
    by rewrite insert_insert_eq. }
  split; [done|]. intros value st Hvalue Hfree.
  rewrite Heq, parseBazelArguments_slice. cbn [dispatch WithArg args].
  rewrite lookup_insert_eq. cbn [Setter].
  rewrite lookup_insert_ne by done. by rewrite Hfree.
Qed.

Lemma WithArg_last_wins_witness :
  parseBazelArguments
    (WithArg (WithArg (testParser [] {| ReaderContents := "";
                                         GetterErr := None |})
                "--id" (logCall "first")) "--id" (logCall "second"))
    (newSliceScanner ["--id"; "lib"]) freshTest
  = (Returned None,
     {| calls := [("second", "lib")]; paramsReaderGetterCallsCount := 0;
        requestedParamsPath := "" |}).
Proof.
  apply (proj2 (WithArg_last_wins _ "--id" (logCall "first")
                  (logCall "second"))); [discriminate|reflexivity].
Defined.

(** X7.  The order in which different flags are registered does not
    matter. *)
Theorem WithArg_commutes {St : Type} (p : bazelArgsParser St)
    (flag1 flag2 : string) (setter1 setter2 : setter St) :
  flag1 <> flag2 ->
  WithArg (WithArg p flag1 setter1) flag2 setter2
  = WithArg (WithArg p flag2 setter2) flag1 setter1.
Proof.
  intros Hne. unfold WithArg; cbn [args paramsReaderGetter].
  by rewrite insert_insert_ne.
Qed.

Lemma WithArg_commutes_witness :
  testParser ["--a"; "--b"] {| ReaderContents := ""; GetterErr := None |}
  = testParser ["--b"; "--a"] {| ReaderContents := ""; GetterErr := None |}.
Proof.
  apply (WithArg_commutes
           {| args := ∅;
              paramsReaderGetter :=
                mockGetter {| ReaderContents := ""; GetterErr := None |} |}
           "--a" "--b" (logCall "--a") (logCall "--b")).
  discriminate.
Defined.

(** X8.  Unless the first argument begins with [@], [Parse] does not
    consult the stream provider: replacing the provider changes neither
    the result nor the state. *)
Theorem Parse_direct_ignores_provider {St : Type} (p : bazelArgsParser St)
    (getter : paramsReaderGetterFn) (arguments : list string) (st : St) :
  head arguments ≫= String.get 0 <> Some "@"%char ->
  Parse (WithParamsReaderGetter p getter) arguments st = Parse p arguments st.
Proof.
  intros Hfirst. unfold Parse.
  destruct arguments as [|firstArgument rest]; [done|].
  destruct (String.get 0 firstArgument) as [c|] eqn:Hget; [|done].
  rewrite bool_decide_eq_false_2; cbn [negb].
  - rewrite !parseBazelArguments_slice. by apply dispatch_same_args.
  - intros ->. apply Hfirst. cbn. by rewrite Hget.
Qed.

Lemma Parse_direct_ignores_provider_witness :
  Parse (WithParamsReaderGetter
           (testParser ["--a"] {| ReaderContents := ""; GetterErr := None |})
           (mockGetter {| ReaderContents := "";
                          GetterErr := Some "an error" |}))
    ["--a"; "v"] freshTest
  = (Returned None,
     {| calls := [("--a", "v")]; paramsReaderGetterCallsCount := 0;
        requestedParamsPath := "" |}).
Proof.
  rewrite Parse_direct_ignores_provider; [reflexivity|discriminate].
Defined.

(** X9.  When the stream provider fails, [Parse] returns the provider's
    error as it is; the provider was asked for the first argument without
    its [@], once, and no callback has run. *)
Theorem Parse_provider_error {St : Type} (p : bazelArgsParser St)
    (path : string) (err : error) (st st1 : St) :
  paramsReaderGetter p path st = (inr err, st1) ->
  Parse p [String "@" path] st = (Returned (Some err), st1).
Proof.
  intros Hget. unfold Parse.
  cbn [String.get negb length String.length Nat.sub].
  rewrite bool_decide_eq_true_2 by done. cbn [negb].
  rewrite bool_decide_eq_false_2 by (simpl; lia).
  cbn [String.substring]. rewrite Nat.sub_0_r, substring_all.
  by rewrite Hget.
Qed.

Lemma Parse_provider_error_witness :
  Parse (testParser ["--a"] {| ReaderContents := "--a";
                               GetterErr := Some "an error" |})
    ["@params.txt"] freshTest
  = (Returned (Some "an error"),
     {| calls := []; paramsReaderGetterCallsCount := 1;
        requestedParamsPath := "params.txt" |}).
Proof. apply Parse_provider_error. reflexivity. Defined.

(** X10.  The dispatch loop fails in one way only: it returns nil exactly
    when the stream is empty or begins with a registered flag.  After the
    first flag every token is accepted, registered or not. *)
Theorem parseBazelArguments_succeeds_iff {St : Type} {T : Type} `{scanner T}
    (p : bazelArgsParser St) (sc : T) (toks : list string) (st : St) :
  yields sc toks ->
  (parseBazelArguments p sc st).1 = Returned None
  <-> match toks with
      | [] => True
      | token :: _ => is_Some (args p !! token)
      end.
Proof.
  intros Hyields. unfold parseBazelArguments.
  rewrite (parseLoop_yields p sc toks Hyields).
  destruct toks as [|token toks]; [done|]. cbn [dispatch].
  destruct (args p !! token) as [a|].
  - split; [by eexists|]. intros _. apply dispatch_active_succeeds.
  - split; [done|]. by intros [? ?].
Qed.

Lemma parseBazelArguments_succeeds_iff_witness :
  (parseBazelArguments
     (testParser ["--a"] {| ReaderContents := ""; GetterErr := None |})
     (newSliceScanner ["--a"; "--unknown"; "v"]) freshTest).1
  = Returned None.
Proof.
  apply (parseBazelArguments_succeeds_iff _ _ ["--a"; "--unknown"; "v"]);
    [apply yields_newSliceScanner|by eexists].
Defined.
